(** * widget_callback.js: the selection callback of the comparison plot

    The script is the body of a callback that the plotting library runs when
    the check box group changes.  The host binds three names for it:
    [cb_obj] (the check box group), [group_list] (the label of every check
    box) and [source] (the column data source behind the plot).  The script
    collects the labels of the ticked boxes, scans every row of the source,
    stores the positions of the rows whose [widget_group] is one of those
    labels in [source.selected.indices], and emits [source.change].

    The embedding keeps the shape of the script: a state and error monad
    over the objects the host binds, two counting loops that push to local
    arrays, one assignment and one emission. *)

From stdpp Require Import gmap strings list sorting.

Local Open Scope Z_scope.
Local Open Scope nat_scope.

(** ** Values *)

(** What a column or [group_list] can hold: the scalars the host
    serialises (null, integers, strings).  JavaScript's [undefined] is not
    among them; it only arises from reading an array past its end, and is
    the [None] of [option value]. *)
Inductive value : Type :=
  | VNull
  | VNum (n : Z)
  | VStr (s : string).

#[global] Instance value_eq_dec : EqDecision value.
Proof. solve_decision. Defined.

(** The result of an indexed read [a[i]]. *)
Abbreviation jsval := (option value).

(** ** The objects bound by the host *)

(** [cb_obj]: only [active] is read. *)
Record CheckboxGroup : Type := { active : list Z }.

(** [source.selected]. *)
Record Selection : Type := { indices : list nat }.

(** [source]: [data] maps a column name to the column. *)
Record ColumnDataSource : Type := {
  data : gmap string (list value);
  selected : Selection
}.

(** Everything the script can reach.  [change_emitted] is the history of
    [source.change]: every emission appends the source as the observers
    find it at that moment. *)
Record World : Type := {
  cb_obj : CheckboxGroup;
  group_list : list value;
  source : ColumnDataSource;
  change_emitted : list ColumnDataSource
}.

(** ** The script monad *)

Inductive js_error : Type :=
  | TypeError (what : string).

Inductive outcome (A : Type) : Type :=
  | Return (a : A) (w : World)
  | Throw (e : js_error).
Arguments Return {A} a w.
Arguments Throw {A} e.

Definition Script (A : Type) : Type := World → outcome A.

#[global] Instance Script_ret : MRet Script := λ A a w, Return a w.

#[global] Instance Script_bind : MBind Script := λ A B f m w,
  match m w with
  | Return a w' => f a w'
  | Throw e => Throw e
  end.

(** Evaluate an expression that only reads. *)
Definition read {A : Type} (f : World → A) : Script A :=
  λ w, Return (f w) w.

(** [source.data[name]] used as an array ([.length] or [[i]]): a name that
    is not a column gives [undefined], and the property access on it
    throws. *)
Definition column (name : string) : Script (list value) :=
  λ w, match data (source w) !! name with
       | Some c => Return c w
       | None => Throw (TypeError name)
       end.

(** [source.selected.indices = l]. *)
Definition assign_selected_indices (l : list nat) : Script () :=
  λ w, Return ()
    {| cb_obj := cb_obj w;
       group_list := group_list w;
       source := {| data := data (source w);
                    selected := {| indices := l |} |};
       change_emitted := change_emitted w |}.

(** [source.change.emit()]. *)
Definition emit_change : Script () :=
  λ w, Return ()
    {| cb_obj := cb_obj w;
       group_list := group_list w;
       source := source w;
       change_emitted := change_emitted w ++ [source w] |}.

(** ** Arrays *)

(** [a.includes(x)].  The comparison is SameValueZero, which on the values
    above, on [undefined] and on integers is equality. *)
Definition includes {A : Type} `{EqDecision A} (a : list A) (x : A) : bool :=
  bool_decide (x ∈ a).

(** [a.push(x)]. *)
Definition push {A : Type} (a : list A) (x : A) : list A := a ++ [x].

(** [for (var i = i0; i < i0 + count; ++ i) body], threading the local
    array the body pushes to.  Neither loop of the script assigns to [i] or
    to the array whose length bounds it, so the bound is the same at every
    test and is taken once. *)
Fixpoint for_from {L : Type} (count i : nat)
    (body : nat → L → Script L) (acc : L) : Script L :=
  match count with
  | O => mret acc
  | S count' => acc' ← body i acc; for_from count' (S i) body acc'
  end.

(** ** The script *)

(** The statements of the script in their order.  [chosen_inds],
    [chosen_widget_groups], [to_select_inds] and [i] are its working
    variables; [group_list] and [source.data] are read again at every
    iteration, as the script does, and a read past the end of an array
    gives [None]. *)
Definition widget_callback : Script () :=
  chosen_inds ← read (λ w, active (cb_obj w));
  n ← read (λ w, length (group_list w));
  chosen_widget_groups ←
    for_from n 0
      (λ i chosen_widget_groups,
         group_list ← read group_list;
         mret (if includes chosen_inds (Z.of_nat i)
               then push chosen_widget_groups (group_list !! i)
               else chosen_widget_groups))
      [];
  index ← column "index";
  to_select_inds ←
    for_from (length index) 0
      (λ i to_select_inds,
         widget_group ← column "widget_group";
         mret (if includes chosen_widget_groups (widget_group !! i)
               then push to_select_inds i
               else to_select_inds))
      [];
  _ ← assign_selected_indices to_select_inds;
  emit_change.

(** ** Building inputs *)

(** A source with exactly the two columns of the plot. *)
Definition mk_source (index widget_group : list value) (sel : list nat)
    : ColumnDataSource :=
  {| data := {[ "index" := index; "widget_group" := widget_group ]};
     selected := {| indices := sel |} |}.

Definition mk_world (act : list Z) (groups : list value)
    (src : ColumnDataSource) (hist : list ColumnDataSource) : World :=
  {| cb_obj := {| active := act |};
     group_list := groups;
     source := src;
     change_emitted := hist |}.

(** The same world with another [cb_obj.active]. *)
Definition with_active (act : list Z) (w : World) : World :=
  mk_world act (group_list w) (source w) (change_emitted w).

(** The same world with another previous selection. *)
Definition with_selected (sel : list nat) (w : World) : World :=
  mk_world (active (cb_obj w)) (group_list w)
    {| data := data (source w); selected := {| indices := sel |} |}
    (change_emitted w).

(** The same world with another [widget_group] column. *)
Definition with_widget_group (wg : list value) (w : World) : World :=
  mk_world (active (cb_obj w)) (group_list w)
    {| data := <["widget_group" := wg]> (data (source w));
       selected := selected (source w) |}
    (change_emitted w).

(** The same world with the column [name] set to [c]. *)
Definition with_column (name : string) (c : list value) (w : World) : World :=
  mk_world (active (cb_obj w)) (group_list w)
    {| data := <[name := c]> (data (source w));
       selected := selected (source w) |}
    (change_emitted w).

(** What the run left in [source.selected.indices], if it returned. *)
Definition selected_after (o : outcome ()) : option (list nat) :=
  match o with
  | Return _ w => Some (indices (selected (source w)))
  | Throw _ => None
  end.

(** ** What the script computes, stated without loops *)

(** The labels of the ticked boxes, in the order of [group_list]. *)
Definition chosen_groups (act : list Z) (groups : list value) : list jsval :=
  (λ i, groups !! i) <$>
    filter (λ i, Z.of_nat i ∈ act) (seq 0 (length groups)).

(** The rows below [n] whose [widget_group] is among [chosen]. *)
Definition matching_rows (chosen : list jsval) (n : nat)
    (widget_group : list value) : list nat :=
  filter (λ r, widget_group !! r ∈ chosen) (seq 0 n).

(** The world once [sel] is stored and the change is emitted. *)
Definition published (sel : list nat) (w : World) : World :=
  {| cb_obj := cb_obj w;
     group_list := group_list w;
     source := {| data := data (source w);
                  selected := {| indices := sel |} |};
     change_emitted :=
       change_emitted w ++ [{| data := data (source w);
                               selected := {| indices := sel |} |}] |}.

(** The outcome of the script by cases on the columns that exist. *)
Definition callback_outcome (w : World) : outcome () :=
  let chosen := chosen_groups (active (cb_obj w)) (group_list w) in
  match data (source w) !! "index" with
  | None => Throw (TypeError "index")
  | Some index =>
      match data (source w) !! "widget_group" with
      | Some widget_group =>
          Return () (published (matching_rows chosen (length index) widget_group) w)
      | None =>
          match index with
          | [] => Return () (published [] w)
          | _ :: _ => Throw (TypeError "widget_group")
          end
      end
  end.

(** The two columns of the claims are present. *)
Definition has_columns (w : World) (index widget_group : list value) : Prop :=
  data (source w) !! "index" = Some index ∧
  data (source w) !! "widget_group" = Some widget_group.

(** The selection the claims speak of. *)
Definition selection (w : World) (index widget_group : list value) : list nat :=
  matching_rows (chosen_groups (active (cb_obj w)) (group_list w))
    (length index) widget_group.

(** ** The scenario of the specification *)

Definition scenario_groups : list value := [VStr "A"; VStr "B"; VStr "C"].
Definition scenario_source : ColumnDataSource :=
  mk_source [VNum 0; VNum 1; VNum 2; VNum 3]
            [VStr "A"; VStr "B"; VStr "A"; VStr "C"] [].
Definition scenario (act : list Z) : World :=
  mk_world act scenario_groups scenario_source [].


(** ** Loops *)

Section loops.
Context {A : Type} (P : nat → Prop) `{∀ j, Decision (P j)} (g : nat → A).
Context (body : nat → list A → Script (list A)) (w : World).

(** A loop whose body pushes [g j] when [P j] and leaves the world alone
    appends the [g j] of the [j] that satisfy [P], in order. *)
Lemma for_from_push count i acc :
  (∀ j a, body j a w = Return (if bool_decide (P j) then push a (g j) else a) w) →
  for_from count i body acc w
  = Return (acc ++ (g <$> filter P (seq i count))) w.
Proof.
  intros Hbody. revert i acc.
  induction count as [|count IH]; intros i acc; simpl.
  - by rewrite app_nil_r.
  - unfold mbind, Script_bind. rewrite Hbody, IH.
    rewrite filter_cons. unfold push.
    case_bool_decide; rewrite decide_bool_decide;
      case_bool_decide; try done.
    by rewrite fmap_cons, <- app_assoc.
Qed.

(** A loop that runs at least once and whose body throws, throws. *)
Lemma for_from_throw count i acc e :
  (∀ j a, body j a w = Throw e) →
  for_from (S count) i body acc w = Throw e.
Proof.
  intros Hbody. simpl. unfold mbind, Script_bind. by rewrite Hbody.
Qed.
End loops.

(** ** The run of the script *)

Lemma widget_callback_outcome w : widget_callback w = callback_outcome w.
Proof.
  unfold widget_callback, callback_outcome.
  unfold mbind at 1 2 3. unfold Script_bind at 1 2 3. unfold read at 1 2.
  rewrite (for_from_push (λ i, Z.of_nat i ∈ active (cb_obj w))
             (λ i, group_list w !! i)).
  2: { intros j a. unfold mbind, Script_bind, read, includes. done. }
  rewrite app_nil_l. fold (chosen_groups (active (cb_obj w)) (group_list w)).
  set (chosen := chosen_groups _ _).
  unfold mbind at 1. unfold Script_bind at 1. unfold column at 1.
  destruct (data (source w) !! "index") as [index|] eqn:Hindex; [|done].
  unfold mbind at 1. unfold Script_bind at 1.
  destruct (data (source w) !! "widget_group") as [wg|] eqn:Hwg.
  - rewrite (for_from_push (λ r, wg !! r ∈ chosen) (λ r, r)).
    2: { intros j a. unfold mbind, Script_bind, column, includes.
         by rewrite Hwg. }
    rewrite app_nil_l, list_fmap_id. done.
  - destruct index as [|x index]; [done|].
    cbn [length]. rewrite (for_from_throw _ _ _ _ _ (TypeError "widget_group")); [done|].
    intros j a. unfold mbind, Script_bind, column. by rewrite Hwg.
Qed.

Lemma widget_callback_run w index widget_group :
  has_columns w index widget_group →
  widget_callback w = Return () (published (selection w index widget_group) w).
Proof.
  intros [Hi Hg]. rewrite widget_callback_outcome. unfold callback_outcome.
  by rewrite Hi, Hg.
Qed.

(** ** Facts about the loop-free description *)

Lemma elem_of_chosen_groups act groups (x : jsval) :
  x ∈ chosen_groups act groups ↔
  ∃ i : nat, i < length groups ∧ Z.of_nat i ∈ act ∧ x = groups !! i.
Proof.
  unfold chosen_groups. rewrite list_elem_of_fmap. split.
  - intros (i & -> & Hi). apply list_elem_of_filter in Hi as [Hact Hi].
    apply elem_of_seq in Hi. exists i. split_and!; [lia|done|done].
  - intros (i & Hlt & Hact & ->). exists i. split; [done|].
    apply list_elem_of_filter. split; [done|]. apply elem_of_seq. lia.
Qed.

(** The same with the entry of [cb_obj.active] itself, an integer. *)
Lemma elem_of_chosen_groups_Z act groups (x : jsval) :
  x ∈ chosen_groups act groups ↔
  ∃ i : Z, i ∈ act ∧ (0 ≤ i < Z.of_nat (length groups))%Z ∧ x = groups !! Z.to_nat i.
Proof.
  rewrite elem_of_chosen_groups. split.
  - intros (i & Hlt & Hact & ->). exists (Z.of_nat i).
    rewrite Nat2Z.id. split_and!; [done|lia|lia|done].
  - intros (i & Hact & Hrange & ->). exists (Z.to_nat i).
    rewrite Z2Nat.id by lia. split_and!; [lia|done|done].
Qed.

(** Every chosen label was read inside [group_list]: none is [undefined]. *)
Lemma undefined_not_chosen act groups : None ∉ chosen_groups act groups.
Proof.
  intros (i & Hlt & _ & Hnone)%elem_of_chosen_groups.
  symmetry in Hnone. apply lookup_ge_None in Hnone. lia.
Qed.

Lemma seq_below n : Forall (λ j, j < n) (seq 0 n).
Proof. apply Forall_forall. intros j Hj%elem_of_seq. lia. Qed.

(** Only the entries of [active] that are positions of [group_list] count. *)
Lemma chosen_groups_ext act act' groups :
  (∀ i : nat, i < length groups → Z.of_nat i ∈ act ↔ Z.of_nat i ∈ act') →
  chosen_groups act groups = chosen_groups act' groups.
Proof.
  intros Hext. unfold chosen_groups. f_equal.
  generalize (seq_below (length groups)).
  induction (seq 0 (length groups)) as [|j l IH]; intros Hb; [done|].
  apply Forall_cons in Hb as [Hj Hl]. rewrite !filter_cons, (IH Hl).
  destruct (decide (Z.of_nat j ∈ act)) as [Hin|Hin],
           (decide (Z.of_nat j ∈ act')) as [Hin'|Hin']; try done.
  - destruct Hin'. by apply Hext.
  - destruct Hin. by apply Hext.
Qed.

Lemma chosen_groups_nil groups : chosen_groups [] groups = [].
Proof.
  unfold chosen_groups.
  induction (seq 0 (length groups)) as [|j l IH]; [done|].
  rewrite filter_cons. destruct (decide (Z.of_nat j ∈ [])) as [Hin|_]; [|done].
  by apply elem_of_nil in Hin.
Qed.

Lemma elem_of_matching_rows chosen n widget_group r :
  r ∈ matching_rows chosen n widget_group ↔
  r < n ∧ widget_group !! r ∈ chosen.
Proof.
  unfold matching_rows. rewrite list_elem_of_filter, elem_of_seq.
  split; intros [? ?]; split; (done || lia).
Qed.

Lemma matching_rows_nil n widget_group : matching_rows [] n widget_group = [].
Proof.
  unfold matching_rows. induction (seq 0 n) as [|j l IH]; [done|].
  rewrite filter_cons. destruct (decide (widget_group !! j ∈ [])) as [Hin|_]; [|done].
  by apply elem_of_nil in Hin.
Qed.

(** The rows are read at positions below [n] only. *)
Lemma matching_rows_take chosen n widget_group widget_group' :
  take n widget_group' = take n widget_group →
  matching_rows chosen n widget_group' = matching_rows chosen n widget_group.
Proof.
  intros Htake. unfold matching_rows.
  generalize (seq_below n).
  induction (seq 0 n) as [|j l IH]; intros Hb; [done|].
  apply Forall_cons in Hb as [Hj Hl]. rewrite !filter_cons, (IH Hl).
  assert (widget_group' !! j = widget_group !! j) as ->; [|done].
  rewrite <- (lookup_take_lt widget_group' n j) by lia.
  rewrite <- (lookup_take_lt widget_group n j) by lia. by rewrite Htake.
Qed.

(** Keeping some of an ascending run of positions keeps it ascending. *)
Lemma filter_seq_ascending (P : nat → Prop) `{∀ j, Decision (P j)} i n :
  StronglySorted lt (filter P (seq i n)).
Proof.
  revert i. induction n as [|n IH]; intros i; simpl; [constructor|].
  rewrite filter_cons. destruct (decide (P i)); [|apply IH].
  constructor; [apply IH|].
  apply Forall_forall. intros j [_ Hj%elem_of_seq]%list_elem_of_filter. lia.
Qed.

Lemma matching_rows_ascending chosen n widget_group :
  StronglySorted lt (matching_rows chosen n widget_group).
Proof. apply filter_seq_ascending. Qed.

Lemma matching_rows_NoDup chosen n widget_group :
  NoDup (matching_rows chosen n widget_group).
Proof. apply NoDup_filter, NoDup_seq. Qed.

(** Two lists of active entries that choose the same labels give the same
    outcome up to [cb_obj.active] itself. *)
Lemma selected_after_chosen w act act' :
  chosen_groups act (group_list w) = chosen_groups act' (group_list w) →
  selected_after (widget_callback (with_active act w))
  = selected_after (widget_callback (with_active act' w)).
Proof.
  intros Heq. rewrite !widget_callback_outcome. unfold callback_outcome.
  cbn [with_active mk_world cb_obj active group_list source]. rewrite Heq.
  destruct (data (source w) !! "index") as [[|x index]|];
    destruct (data (source w) !! "widget_group") as [wg|]; done.
Qed.

Lemma selected_after_run w index widget_group :
  has_columns w index widget_group →
  selected_after (widget_callback w) = Some (selection w index widget_group).
Proof. intros Hcols. by rewrite (widget_callback_run _ _ _ Hcols). Qed.

Lemma elem_of_selection w index widget_group r :
  r ∈ selection w index widget_group ↔
  r < length index ∧
  ∃ i : Z, i ∈ active (cb_obj w) ∧
           (0 ≤ i < Z.of_nat (length (group_list w)))%Z ∧
           widget_group !! r = group_list w !! Z.to_nat i.
Proof.
  unfold selection.
  by rewrite elem_of_matching_rows, elem_of_chosen_groups_Z.
Qed.

Lemma has_columns_with_active act w index widget_group :
  has_columns w index widget_group →
  has_columns (with_active act w) index widget_group.
Proof. done. Qed.

Lemma has_columns_with_selected sel w index widget_group :
  has_columns w index widget_group →
  has_columns (with_selected sel w) index widget_group.
Proof. done. Qed.

Lemma has_columns_with_widget_group wg w index widget_group :
  has_columns w index widget_group →
  has_columns (with_widget_group wg w) index wg.
Proof.
  intros [Hi _]. split; cbn.
  - by rewrite lookup_insert_ne.
  - by rewrite lookup_insert_eq.
Qed.

(** ** The properties of the specification *)

(** C1. With [index] and [widget_group] columns of equal length, the run
    returns, and afterwards a row position [r] is in
    [source.selected.indices] exactly when [widget_group[r]] equals
    [group_list[i]] for some entry [i] of [cb_obj.active] with
    [0 <= i < group_list.length]. *)
Theorem selected_iff_group_active w index widget_group :
  has_columns w index widget_group →
  length index = length widget_group →
  ∃ w', widget_callback w = Return () w' ∧
    ∀ r : nat,
      r ∈ indices (selected (source w')) ↔
      ∃ i : Z, i ∈ active (cb_obj w) ∧
               (0 ≤ i < Z.of_nat (length (group_list w)))%Z ∧
               widget_group !! r = group_list w !! Z.to_nat i.
Proof.
  intros Hcols Hlen. eexists. split; [by apply widget_callback_run|].
  intros r. cbn. rewrite elem_of_selection. split; [by intros [_ ?]|].
  intros (i & Hact & Hrange & Heq). split; [|by exists i].
  rewrite Hlen. apply lookup_lt_is_Some. rewrite Heq.
  apply lookup_lt_is_Some. lia.
Qed.

Lemma selected_iff_group_active_witness :
  ∃ w', widget_callback (scenario [0%Z; 2%Z]) = Return () w' ∧
    ∀ r : nat,
      r ∈ indices (selected (source w')) ↔
      ∃ i : Z, i ∈ [0%Z; 2%Z] ∧
               (0 ≤ i < 3)%Z ∧
               [VStr "A"; VStr "B"; VStr "A"; VStr "C"] !! r
               = scenario_groups !! Z.to_nat i.
Proof.
  apply (selected_iff_group_active (scenario [0%Z; 2%Z])
           [VNum 0; VNum 1; VNum 2; VNum 3]
           [VStr "A"; VStr "B"; VStr "A"; VStr "C"]).
  - split; reflexivity.
  - reflexivity.
Defined.

(** C2. The sequence stored in [source.selected.indices] is strictly
    ascending, so no position occurs twice, and it does not depend on the
    selection that was there before: the previous selection is replaced by
    exactly this sequence. *)
Theorem selected_strictly_ascending w index widget_group :
  has_columns w index widget_group →
  ∃ w', widget_callback w = Return () w' ∧
    StronglySorted lt (indices (selected (source w'))) ∧
    NoDup (indices (selected (source w'))) ∧
    ∀ prev : list nat,
      selected_after (widget_callback (with_selected prev w))
      = Some (indices (selected (source w'))).
Proof.
  intros Hcols. eexists. split; [by apply widget_callback_run|].
  cbn. split_and!.
  - apply matching_rows_ascending.
  - apply matching_rows_NoDup.
  - intros prev.
    by rewrite (selected_after_run _ index widget_group)
      by by apply has_columns_with_selected.
Qed.

Lemma selected_strictly_ascending_witness :
  ∃ w', widget_callback
          (mk_world [2%Z; 0%Z] scenario_groups
             (mk_source [VNum 0; VNum 1; VNum 2; VNum 3]
                [VStr "A"; VStr "B"; VStr "A"; VStr "C"] [3; 1; 1])
             []) = Return () w' ∧
    StronglySorted lt (indices (selected (source w'))) ∧
    NoDup (indices (selected (source w'))) ∧
    ∀ prev : list nat,
      selected_after
        (widget_callback
           (with_selected prev
              (mk_world [2%Z; 0%Z] scenario_groups
                 (mk_source [VNum 0; VNum 1; VNum 2; VNum 3]
                    [VStr "A"; VStr "B"; VStr "A"; VStr "C"] [3; 1; 1])
                 [])))
      = Some (indices (selected (source w'))).
Proof.
  apply (selected_strictly_ascending _
           [VNum 0; VNum 1; VNum 2; VNum 3]
           [VStr "A"; VStr "B"; VStr "A"; VStr "C"]).
  split; reflexivity.
Defined.

(** C3. The selection depends only on the set of values in
    [cb_obj.active]: reordering the entries does not change it, removing
    the repeated entries does not change it, and any two lists with the
    same entries give the same selection (and the same failure when a
    column is missing). *)
Theorem selected_depends_on_active_set (w : World) (act act' : list Z) :
  (act ≡ₚ act' →
     selected_after (widget_callback (with_active act' w))
     = selected_after (widget_callback (with_active act w))) ∧
  selected_after (widget_callback (with_active (remove_dups act) w))
  = selected_after (widget_callback (with_active act w)) ∧
  ((∀ i : Z, i ∈ act ↔ i ∈ act') →
     selected_after (widget_callback (with_active act' w))
     = selected_after (widget_callback (with_active act w))).
Proof.
  split_and!.
  - intros Hperm. apply selected_after_chosen, chosen_groups_ext.
    intros i _. by rewrite Hperm.
  - apply selected_after_chosen, chosen_groups_ext.
    intros i _. apply elem_of_remove_dups.
  - intros Hset. apply selected_after_chosen, chosen_groups_ext.
    intros i _. symmetry. apply Hset.
Qed.

Lemma selected_depends_on_active_set_witness :
  selected_after (widget_callback (with_active [0%Z; 2%Z] (scenario [])))
  = selected_after (widget_callback (with_active [2%Z; 0%Z; 2%Z] (scenario []))).
Proof.
  apply (selected_depends_on_active_set (scenario []) [2%Z; 0%Z; 2%Z] [0%Z; 2%Z]).
  intros i. rewrite !elem_of_cons, !elem_of_nil. tauto.
Defined.

(** C4. Entries of [cb_obj.active] at or above [group_list.length] cause
    no failure and contribute nothing: the run returns, and the selection
    is the one obtained from the entries below [group_list.length]
    alone. *)
Theorem out_of_range_active_ignored w index widget_group :
  has_columns w index widget_group →
  ∃ w', widget_callback w = Return () w' ∧
    selected_after
      (widget_callback
         (with_active
            (filter (λ i : Z, (i < Z.of_nat (length (group_list w)))%Z)
                    (active (cb_obj w))) w))
    = Some (indices (selected (source w'))).
Proof.
  intros Hcols. eexists. split; [by apply widget_callback_run|].
  cbn [published source selected indices].
  rewrite <- (selected_after_run w index widget_group Hcols).
  destruct w as [[act] groups src hist].
  apply (selected_after_chosen (mk_world act groups src hist)), chosen_groups_ext.
  intros i Hi. cbn in *. rewrite list_elem_of_filter. split; [by intros [_ ?]|].
  intros Hact. split; [lia|done].
Qed.

Lemma out_of_range_active_ignored_witness :
  ∃ w', widget_callback (scenario [5%Z; 1%Z; 3%Z]) = Return () w' ∧
    selected_after
      (widget_callback
         (with_active
            (filter (λ i : Z, (i < Z.of_nat (length (group_list (scenario [5%Z; 1%Z; 3%Z]))))%Z)
                    (active (cb_obj (scenario [5%Z; 1%Z; 3%Z]))))
            (scenario [5%Z; 1%Z; 3%Z])))
    = Some (indices (selected (source w'))).
Proof.
  apply (out_of_range_active_ignored (scenario [5%Z; 1%Z; 3%Z])
           [VNum 0; VNum 1; VNum 2; VNum 3]
           [VStr "A"; VStr "B"; VStr "A"; VStr "C"]).
  split; reflexivity.
Defined.

(** C5. With an empty [cb_obj.active] the run returns, the selection is
    empty afterwards whatever it was before, and the change is emitted. *)
Theorem empty_active_clears_selection w index widget_group :
  has_columns w index widget_group →
  active (cb_obj w) = [] →
  ∃ w', widget_callback w = Return () w' ∧
    indices (selected (source w')) = [] ∧
    change_emitted w' = change_emitted w ++ [source w'].
Proof.
  intros Hcols Hact. eexists. split; [by apply widget_callback_run|].
  cbn. unfold selection. rewrite Hact, chosen_groups_nil, matching_rows_nil.
  done.
Qed.

Lemma empty_active_clears_selection_witness :
  ∃ w', widget_callback
          (mk_world [] scenario_groups
             (mk_source [VNum 0; VNum 1; VNum 2; VNum 3]
                [VStr "A"; VStr "B"; VStr "A"; VStr "C"] [0; 2])
             []) = Return () w' ∧
    indices (selected (source w')) = [] ∧
    change_emitted w' = [] ++ [source w'].
Proof.
  apply (empty_active_clears_selection
           (mk_world [] scenario_groups
             (mk_source [VNum 0; VNum 1; VNum 2; VNum 3]
                [VStr "A"; VStr "B"; VStr "A"; VStr "C"] [0; 2])
             [])
           [VNum 0; VNum 1; VNum 2; VNum 3]
           [VStr "A"; VStr "B"; VStr "A"; VStr "C"]).
  - split; reflexivity.
  - reflexivity.
Defined.

(** C6. Every run emits the change exactly once: the history of
    [source.change] grows by one entry, and what the observers find at that
    emission is the source with the new selection already stored.  Nothing
    compares the new selection with the previous one, so this holds also
    when they are equal. *)
Theorem change_emitted_once w index widget_group :
  has_columns w index widget_group →
  ∃ w', widget_callback w = Return () w' ∧
    change_emitted w' = change_emitted w ++ [source w'] ∧
    length (change_emitted w') = S (length (change_emitted w)) ∧
    indices (selected (source w')) = selection w index widget_group.
Proof.
  intros Hcols. eexists. split; [by apply widget_callback_run|].
  cbn. split_and!; [done| |done].
  rewrite length_app. cbn. lia.
Qed.

Lemma change_emitted_once_witness :
  ∃ w', widget_callback
          (mk_world [0%Z] scenario_groups
             (mk_source [VNum 0; VNum 1; VNum 2; VNum 3]
                [VStr "A"; VStr "B"; VStr "A"; VStr "C"] [0; 2])
             []) = Return () w' ∧
    change_emitted w' = [] ++ [source w'] ∧
    length (change_emitted w') = 1 ∧
    indices (selected (source w')) = [0; 2].
Proof.
  apply (change_emitted_once
           (mk_world [0%Z] scenario_groups
             (mk_source [VNum 0; VNum 1; VNum 2; VNum 3]
                [VStr "A"; VStr "B"; VStr "A"; VStr "C"] [0; 2])
             [])
           [VNum 0; VNum 1; VNum 2; VNum 3]
           [VStr "A"; VStr "B"; VStr "A"; VStr "C"]).
  split; reflexivity.
Defined.

(** C7. The run writes [source.selected] (and the history of
    [source.change]) and nothing else: [cb_obj.active], [group_list] and
    every column of [source.data], [index] and [widget_group] among them,
    are afterwards what they were. *)
Theorem only_selected_is_mutated w index widget_group :
  has_columns w index widget_group →
  ∃ w', widget_callback w = Return () w' ∧
    active (cb_obj w') = active (cb_obj w) ∧
    group_list w' = group_list w ∧
    data (source w') = data (source w) ∧
    has_columns w' index widget_group.
Proof.
  intros Hcols. eexists. split; [by apply widget_callback_run|]. done.
Qed.

Lemma only_selected_is_mutated_witness :
  ∃ w', widget_callback (scenario [1%Z]) = Return () w' ∧
    active (cb_obj w') = [1%Z] ∧
    group_list w' = scenario_groups ∧
    data (source w') = data scenario_source ∧
    has_columns w' [VNum 0; VNum 1; VNum 2; VNum 3]
                   [VStr "A"; VStr "B"; VStr "A"; VStr "C"].
Proof.
  apply (only_selected_is_mutated (scenario [1%Z])
           [VNum 0; VNum 1; VNum 2; VNum 3]
           [VStr "A"; VStr "B"; VStr "A"; VStr "C"]).
  split; reflexivity.
Defined.

(** C8. The scenarios of the specification: with [group_list]
    ["A","B","C"], [index] [0,1,2,3] and [widget_group] ["A","B","A","C"],
    the active entries [0] select [0,2], [0,2] select [0,2,3], [1,1] select
    [1], and [5] selects nothing. *)
Theorem scenario_selections :
  selected_after (widget_callback (scenario [0%Z])) = Some [0; 2] ∧
  selected_after (widget_callback (scenario [0%Z; 2%Z])) = Some [0; 2; 3] ∧
  selected_after (widget_callback (scenario [1%Z; 1%Z])) = Some [1] ∧
  selected_after (widget_callback (scenario [5%Z])) = Some [].
Proof. split_and!; vm_compute; reflexivity. Qed.

(** C9. When [widget_group] is shorter than [index] the run still
    returns; the loop visits every position of [index], so a position is
    selected exactly when its [widget_group] equals the label of an active
    box; the read past the end of [widget_group] gives [undefined], which
    is no label, so no position at or beyond [widget_group.length] is
    selected.  When [widget_group] is the longer one, what it holds beyond
    [index.length] is never read: any other contents there give the same
    selection. *)
Theorem short_widget_group_column w index widget_group :
  has_columns w index widget_group →
  ∃ w', widget_callback w = Return () w' ∧
    (length widget_group < length index →
       (∀ r : nat, length widget_group ≤ r →
                   r ∉ indices (selected (source w'))) ∧
       (∀ r : nat, r < length index →
          r ∈ indices (selected (source w')) ↔
          ∃ i : Z, i ∈ active (cb_obj w) ∧
                   (0 ≤ i < Z.of_nat (length (group_list w)))%Z ∧
                   widget_group !! r = group_list w !! Z.to_nat i)) ∧
    (length index ≤ length widget_group →
       ∀ rest : list value,
         selected_after
           (widget_callback
              (with_widget_group (take (length index) widget_group ++ rest) w))
         = Some (indices (selected (source w')))).
Proof.
  intros Hcols. eexists. split; [by apply widget_callback_run|].
  cbn [published source selected indices]. split.
  - intros Hshort. split.
    + intros r Hr [_ Hin]%elem_of_matching_rows.
      rewrite (lookup_ge_None_2 widget_group r Hr) in Hin.
      by apply undefined_not_chosen in Hin.
    + intros r Hr. rewrite elem_of_selection. split; [by intros [_ ?]|done].
  - intros Hlong rest.
    rewrite (selected_after_run _ index (take (length index) widget_group ++ rest))
      by by eapply has_columns_with_widget_group.
    f_equal. unfold selection. cbn. apply matching_rows_take.
    rewrite take_app_le by (rewrite length_take; lia).
    by rewrite take_take, Nat.min_id.
Qed.

Lemma short_widget_group_column_witness :
  ∃ w', widget_callback
          (mk_world [0%Z] scenario_groups
             (mk_source [VNum 0; VNum 1; VNum 2; VNum 3]
                        [VStr "A"; VStr "B"] [])
             []) = Return () w' ∧
    indices (selected (source w')) = [0] ∧
    ∀ r : nat, 2 ≤ r → r ∉ indices (selected (source w')).
Proof.
  destruct (short_widget_group_column
              (mk_world [0%Z] scenario_groups
                 (mk_source [VNum 0; VNum 1; VNum 2; VNum 3]
                            [VStr "A"; VStr "B"] [])
                 [])
              [VNum 0; VNum 1; VNum 2; VNum 3]
              [VStr "A"; VStr "B"]) as (w' & Hrun & Hshort & _).
  - split; reflexivity.
  - exists w'. split; [exact Hrun|]. split.
    + injection Hrun as <-. reflexivity.
    + apply Hshort. simpl. lia.
Defined.

(** C10. Negative entries of [cb_obj.active] are ignored: for every
    input, the outcome is the one obtained once they are removed, because
    an entry is only ever compared with the positions [0 ..
    group_list.length - 1]. *)
Theorem negative_active_ignored (w : World) (act : list Z) :
  selected_after (widget_callback (with_active act w))
  = selected_after
      (widget_callback (with_active (filter (λ i : Z, (0 ≤ i)%Z) act) w)).
Proof.
  apply selected_after_chosen, chosen_groups_ext.
  intros i _. rewrite list_elem_of_filter. split; [|by intros [_ ?]].
  intros Hact. split; [lia|done].
Qed.

(** ** Further properties of the script *)

(** Only the set of the chosen labels matters to the scan of the rows. *)
Lemma matching_rows_set_ext chosen chosen' n widget_group :
  (∀ x : jsval, x ∈ chosen ↔ x ∈ chosen') →
  matching_rows chosen n widget_group = matching_rows chosen' n widget_group.
Proof. intros Hset. unfold matching_rows. apply list_filter_iff. intros r. apply Hset. Qed.

Lemma selected_after_chosen_set w act act' :
  (∀ x : jsval, x ∈ chosen_groups act (group_list w)
                ↔ x ∈ chosen_groups act' (group_list w)) →
  selected_after (widget_callback (with_active act w))
  = selected_after (widget_callback (with_active act' w)).
Proof.
  intros Hset. rewrite !widget_callback_outcome. unfold callback_outcome.
  cbn [with_active mk_world cb_obj active group_list source].
  destruct (data (source w) !! "index") as [[|x index]|];
    destruct (data (source w) !! "widget_group") as [wg|]; try done.
  all: cbn [selected_after published source selected indices]; f_equal;
    by apply matching_rows_set_ext.
Qed.

(** Keeping fewer elements of a list gives a sublist of keeping more. *)
Lemma filter_sublist_mono {A : Type} (P Q : A → Prop)
    `{∀ x, Decision (P x), ∀ x, Decision (Q x)} (l : list A) :
  (∀ x, P x → Q x) → filter P l `sublist_of` filter Q l.
Proof.
  intros HPQ. induction l as [|x l IH]; [done|].
  rewrite !filter_cons.
  destruct (decide (P x)) as [HP|HP], (decide (Q x)) as [HQ|HQ].
  - by apply sublist_skip.
  - destruct HQ. by apply HPQ.
  - by apply sublist_cons.
  - done.
Qed.

Lemma filter_all {A : Type} (P : A → Prop) `{∀ x, Decision (P x)} (l : list A) :
  Forall P l → filter P l = l.
Proof.
  induction 1 as [|x l HP _ IH]; [done|].
  rewrite filter_cons. destruct (decide (P x)); [by rewrite IH|done].
Qed.

(** X1. The run returns exactly when the [index] column exists and either
    it is empty or the [widget_group] column exists too; otherwise it
    throws. *)
Theorem returns_iff_columns_readable (w : World) :
  (∃ w', widget_callback w = Return () w') ↔
  ∃ index, data (source w) !! "index" = Some index ∧
           (index = [] ∨ is_Some (data (source w) !! "widget_group")).
Proof.
  rewrite widget_callback_outcome. unfold callback_outcome.
  destruct (data (source w) !! "index") as [index|].
  - destruct (data (source w) !! "widget_group") as [wg|].
    + split; [|by eauto]. intros _. exists index. split; [done|]. right. by eexists.
    + destruct index as [|x index].
      * split; [|by eauto]. intros _. exists []. split; [done|by left].
      * split; [by intros [? ?]|].
        intros (idx & [= <-] & [?|[? ?]]); done.
  - split; [by intros [? ?]|]. by intros (idx & ? & _).
Qed.

(** X2. With an empty [index] column the second loop never runs: the
    [widget_group] column is not read (it may be missing), the selection
    becomes empty whatever boxes are ticked, the change is emitted, and the
    columns are left as they were. *)
Theorem empty_index_selects_nothing (w : World) :
  data (source w) !! "index" = Some [] →
  ∃ w', widget_callback w = Return () w' ∧
    indices (selected (source w')) = [] ∧
    change_emitted w' = change_emitted w ++ [source w'] ∧
    data (source w') = data (source w).
Proof.
  intros Hindex. rewrite widget_callback_outcome. unfold callback_outcome.
  rewrite Hindex.
  destruct (data (source w) !! "widget_group") as [wg|]; eexists; done.
Qed.

Lemma empty_index_selects_nothing_witness :
  ∃ w', widget_callback
          (mk_world [0%Z] scenario_groups
             {| data := {[ "index" := [] ]};
                selected := {| indices := [4; 1] |} |} [])
        = Return () w' ∧
    indices (selected (source w')) = [] ∧
    change_emitted w' = [] ++ [source w'] ∧
    data (source w') = ({[ "index" := [] ]} : gmap string (list value)).
Proof.
  exact (empty_index_selects_nothing
           (mk_world [0%Z] scenario_groups
              {| data := {[ "index" := [] ]};
                 selected := {| indices := [4; 1] |} |} [])
           eq_refl).
Defined.

(** X3. Running the script again on the world it left returns the same
    source: the selection is the same, and the second emission shows the
    observers the same source as the first. *)
Theorem second_run_repeats w index widget_group :
  has_columns w index widget_group →
  ∃ w1 w2, widget_callback w = Return () w1 ∧
           widget_callback w1 = Return () w2 ∧
           source w2 = source w1 ∧
           change_emitted w2 = change_emitted w ++ [source w1; source w1].
Proof.
  intros Hcols.
  exists (published (selection w index widget_group) w).
  eexists. split; [by apply widget_callback_run|].
  split; [by apply (widget_callback_run _ index widget_group)|].
  cbn. split; [done|]. by rewrite <- app_assoc.
Qed.

Lemma second_run_repeats_witness :
  ∃ w1 w2, widget_callback (scenario [2%Z]) = Return () w1 ∧
           widget_callback w1 = Return () w2 ∧
           source w2 = source w1 ∧
           change_emitted w2 = [] ++ [source w1; source w1].
Proof.
  apply (second_run_repeats (scenario [2%Z])
           [VNum 0; VNum 1; VNum 2; VNum 3]
           [VStr "A"; VStr "B"; VStr "A"; VStr "C"]).
  split; reflexivity.
Defined.

(** X4. Every position the script selects is a row of both columns whose
    [widget_group] is one of the labels of [group_list], and there are at
    most [index.length] of them. *)
Theorem selected_rows_are_labelled_rows w index widget_group :
  has_columns w index widget_group →
  ∃ w', widget_callback w = Return () w' ∧
    length (indices (selected (source w'))) ≤ length index ∧
    ∀ r : nat, r ∈ indices (selected (source w')) →
      r < length index ∧
      ∃ v : value, widget_group !! r = Some v ∧ v ∈ group_list w.
Proof.
  intros Hcols. eexists. split; [by apply widget_callback_run|].
  cbn. split.
  - unfold selection, matching_rows.
    etrans; [apply length_filter|]. by rewrite length_seq.
  - intros r (Hr & i & _ & Hrange & Heq)%elem_of_selection.
    split; [done|].
    destruct (lookup_lt_is_Some_2 (group_list w) (Z.to_nat i)) as [v Hv]; [lia|].
    exists v. split; [congruence|]. by eapply list_elem_of_lookup_2.
Qed.

Lemma selected_rows_are_labelled_rows_witness :
  ∃ w', widget_callback (scenario [0%Z; 7%Z]) = Return () w' ∧
    length (indices (selected (source w'))) ≤ 4 ∧
    ∀ r : nat, r ∈ indices (selected (source w')) →
      r < 4 ∧
      ∃ v : value, [VStr "A"; VStr "B"; VStr "A"; VStr "C"] !! r = Some v
                   ∧ v ∈ scenario_groups.
Proof.
  apply (selected_rows_are_labelled_rows (scenario [0%Z; 7%Z])
           [VNum 0; VNum 1; VNum 2; VNum 3]
           [VStr "A"; VStr "B"; VStr "A"; VStr "C"]).
  split; reflexivity.
Defined.

(** X5. Ticking more boxes never deselects a row: when every entry of one
    list of active entries is an entry of another, the selection for the
    first is a sublist of the selection for the second. *)
Theorem more_active_selects_more w index widget_group (act act' : list Z) :
  has_columns w index widget_group →
  (∀ i : Z, i ∈ act → i ∈ act') →
  ∃ s s' : list nat,
    selected_after (widget_callback (with_active act w)) = Some s ∧
    selected_after (widget_callback (with_active act' w)) = Some s' ∧
    s `sublist_of` s'.
Proof.
  intros Hcols Hsub. do 2 eexists.
  split; [by apply (selected_after_run _ index widget_group)|].
  split; [by apply (selected_after_run _ index widget_group)|].
  unfold selection, matching_rows. cbn. apply filter_sublist_mono.
  intros r (i & Hlt & Hact & Heq)%elem_of_chosen_groups.
  apply elem_of_chosen_groups. exists i. split_and!; [done| |done].
  by apply Hsub.
Qed.

Lemma more_active_selects_more_witness :
  ∃ s s' : list nat,
    selected_after (widget_callback (with_active [2%Z] (scenario []))) = Some s ∧
    selected_after (widget_callback (with_active [0%Z; 2%Z] (scenario [])))
    = Some s' ∧
    s `sublist_of` s'.
Proof.
  apply (more_active_selects_more (scenario [])
           [VNum 0; VNum 1; VNum 2; VNum 3]
           [VStr "A"; VStr "B"; VStr "A"; VStr "C"]).
  - split; reflexivity.
  - intros i. rewrite !elem_of_cons, !elem_of_nil. tauto.
Defined.

(** X6. The selection for two lists of active entries put together is
    the union of the two selections. *)
Theorem selection_of_appended_active w index widget_group (act act' : list Z) :
  has_columns w index widget_group →
  ∃ s s' u : list nat,
    selected_after (widget_callback (with_active act w)) = Some s ∧
    selected_after (widget_callback (with_active act' w)) = Some s' ∧
    selected_after (widget_callback (with_active (act ++ act') w)) = Some u ∧
    ∀ r : nat, r ∈ u ↔ r ∈ s ∨ r ∈ s'.
Proof.
  intros Hcols. do 3 eexists.
  split; [by apply (selected_after_run _ index widget_group)|].
  split; [by apply (selected_after_run _ index widget_group)|].
  split; [by apply (selected_after_run _ index widget_group)|].
  intros r. rewrite !elem_of_selection. cbn. split.
  - intros (Hr & i & [Hact|Hact]%elem_of_app & Hrest);
      [left|right]; (split; [done|]); by exists i.
  - intros [(Hr & i & Hact & Hrest)|(Hr & i & Hact & Hrest)];
      (split; [done|]); exists i; rewrite elem_of_app; auto.
Qed.

Lemma selection_of_appended_active_witness :
  ∃ s s' u : list nat,
    selected_after (widget_callback (with_active [1%Z] (scenario []))) = Some s ∧
    selected_after (widget_callback (with_active [2%Z] (scenario []))) = Some s' ∧
    selected_after (widget_callback (with_active ([1%Z] ++ [2%Z]) (scenario [])))
    = Some u ∧
    ∀ r : nat, r ∈ u ↔ r ∈ s ∨ r ∈ s'.
Proof.
  apply (selection_of_appended_active (scenario [])
           [VNum 0; VNum 1; VNum 2; VNum 3]
           [VStr "A"; VStr "B"; VStr "A"; VStr "C"]).
  split; reflexivity.
Defined.

(** X7. When every box is ticked, [widget_group] is at least as long as
    [index] and all its labels are labels of [group_list], every row is
    selected: the selection is [0, 1, ..., index.length - 1]. *)
Theorem all_active_selects_all w index widget_group :
  has_columns w index widget_group →
  (∀ i : nat, i < length (group_list w) → Z.of_nat i ∈ active (cb_obj w)) →
  length index ≤ length widget_group →
  Forall (λ v, v ∈ group_list w) widget_group →
  ∃ w', widget_callback w = Return () w' ∧
    indices (selected (source w')) = seq 0 (length index).
Proof.
  intros Hcols Hall Hlen Hlabels. eexists.
  split; [by apply widget_callback_run|].
  cbn. unfold selection, matching_rows. apply filter_all.
  apply Forall_forall. intros r Hr%elem_of_seq.
  destruct (lookup_lt_is_Some_2 widget_group r) as [v Hv]; [lia|].
  rewrite Forall_forall in Hlabels.
  destruct (proj1 (list_elem_of_lookup _ _)
              (Hlabels v (list_elem_of_lookup_2 _ _ _ Hv))) as [i Hi].
  apply elem_of_chosen_groups. exists i. split_and!.
  - by eapply lookup_lt_Some.
  - apply Hall. by eapply lookup_lt_Some.
  - congruence.
Qed.

Lemma all_active_selects_all_witness :
  ∃ w', widget_callback (scenario [2%Z; 1%Z; 0%Z]) = Return () w' ∧
    indices (selected (source w')) = seq 0 4.
Proof.
  apply (all_active_selects_all (scenario [2%Z; 1%Z; 0%Z])
           [VNum 0; VNum 1; VNum 2; VNum 3]
           [VStr "A"; VStr "B"; VStr "A"; VStr "C"]).
  - split; reflexivity.
  - intros i Hi. cbn in Hi.
    destruct i as [|[|[|i]]]; cbn; rewrite !elem_of_cons; [tauto..|lia].
  - cbn. lia.
  - repeat constructor; cbn; unfold scenario_groups;
      rewrite !elem_of_cons; tauto.
Defined.

(** X8. The script reads no column other than [index] and
    [widget_group]: setting any other column of [source.data] changes
    neither the selection nor whether the run throws. *)
Theorem other_columns_not_read (w : World) (name : string) (c : list value) :
  name ≠ "index" → name ≠ "widget_group" →
  selected_after (widget_callback (with_column name c w))
  = selected_after (widget_callback w).
Proof.
  intros Hi Hg. rewrite !widget_callback_outcome. unfold callback_outcome.
  cbn [with_column mk_world cb_obj active group_list source data].
  rewrite !lookup_insert_ne by done.
  destruct (data (source w) !! "index") as [[|x index]|];
    destruct (data (source w) !! "widget_group") as [wg|]; done.
Qed.

Lemma other_columns_not_read_witness :
  selected_after
    (widget_callback (with_column "value" [VNum 7; VNum 8] (scenario [0%Z])))
  = selected_after (widget_callback (scenario [0%Z])).
Proof.
  apply (other_columns_not_read (scenario [0%Z]) "value" [VNum 7; VNum 8]);
    discriminate.
Defined.

(** X9. Of the [index] column only the length is used: replacing it by
    any column of the same length changes neither the selection nor
    whether the run throws.  The selection holds row positions, not the
    identifiers stored in [index]. *)
Theorem index_values_not_read (w : World) (index index' : list value) :
  data (source w) !! "index" = Some index →
  length index' = length index →
  selected_after (widget_callback (with_column "index" index' w))
  = selected_after (widget_callback w).
Proof.
  intros Hindex Hlen. rewrite !widget_callback_outcome. unfold callback_outcome.
  cbn [with_column mk_world cb_obj active group_list source data].
  rewrite lookup_insert_eq, lookup_insert_ne by done. rewrite Hindex, Hlen.
  destruct (data (source w) !! "widget_group") as [wg|]; [done|].
  destruct index, index'; done.
Qed.

Lemma index_values_not_read_witness :
  selected_after
    (widget_callback
       (with_column "index" [VStr "w"; VStr "x"; VStr "y"; VStr "z"]
          (scenario [0%Z])))
  = selected_after (widget_callback (scenario [0%Z])).
Proof.
  apply (index_values_not_read (scenario [0%Z])
           [VNum 0; VNum 1; VNum 2; VNum 3]
           [VStr "w"; VStr "x"; VStr "y"; VStr "z"]); reflexivity.
Defined.

(** X10. When the labels of [group_list] are pairwise distinct, two
    lists of active entries with no entry in common select no row in
    common. *)
Theorem disjoint_active_disjoint_rows w index widget_group (act act' : list Z) :
  has_columns w index widget_group →
  NoDup (group_list w) →
  (∀ i : Z, i ∈ act → i ∉ act') →
  ∃ s s' : list nat,
    selected_after (widget_callback (with_active act w)) = Some s ∧
    selected_after (widget_callback (with_active act' w)) = Some s' ∧
    ∀ r : nat, r ∈ s → r ∉ s'.
Proof.
  intros Hcols Hdistinct Hdisj. do 2 eexists.
  split; [by apply (selected_after_run _ index widget_group)|].
  split; [by apply (selected_after_run _ index widget_group)|].
  intros r (_ & i & Hi & Hirange & Hieq)%elem_of_selection
           (_ & j & Hj & Hjrange & Hjeq)%elem_of_selection.
  cbn in *.
  destruct (lookup_lt_is_Some_2 (group_list w) (Z.to_nat i)) as [v Hv]; [lia|].
  assert (Z.to_nat i = Z.to_nat j) as Hij.
  { apply (NoDup_lookup (group_list w) _ _ v); [done|done|congruence]. }
  apply (Hdisj i Hi). by replace i with j by lia.
Qed.

Lemma disjoint_active_disjoint_rows_witness :
  ∃ s s' : list nat,
    selected_after (widget_callback (with_active [0%Z] (scenario []))) = Some s ∧
    selected_after (widget_callback (with_active [1%Z; 2%Z] (scenario [])))
    = Some s' ∧
    ∀ r : nat, r ∈ s → r ∉ s'.
Proof.
  apply (disjoint_active_disjoint_rows (scenario [])
           [VNum 0; VNum 1; VNum 2; VNum 3]
           [VStr "A"; VStr "B"; VStr "A"; VStr "C"]).
  - split; reflexivity.
  - cbn. unfold scenario_groups. repeat constructor;
      rewrite ?elem_of_cons, ?elem_of_nil; intros H;
      repeat destruct H as [H|H]; discriminate || done.
  - intros i. rewrite !elem_of_cons, !elem_of_nil.
    intros [->|[]] [H|[H|[]]]; discriminate.
Defined.

(** X11. Two boxes with the same label are interchangeable: if
    [group_list[i]] and [group_list[j]] are equal (or both past the end),
    ticking [i] or ticking [j] besides the same other boxes gives the same
    outcome. *)
Theorem equal_labels_interchangeable (w : World) (i j : nat) (act : list Z) :
  group_list w !! i = group_list w !! j →
  selected_after (widget_callback (with_active (Z.of_nat i :: act) w))
  = selected_after (widget_callback (with_active (Z.of_nat j :: act) w)).
Proof.
  assert (∀ (a b : nat) (x : jsval),
            group_list w !! a = group_list w !! b →
            x ∈ chosen_groups (Z.of_nat a :: act) (group_list w) →
            x ∈ chosen_groups (Z.of_nat b :: act) (group_list w)) as Hone.
  { intros a b x Hab (k & Hk & Hact & ->)%elem_of_chosen_groups.
    apply elem_of_chosen_groups.
    apply elem_of_cons in Hact as [Hka|Hact].
    - assert (k = a) as -> by lia. exists b. split_and!.
      + apply lookup_lt_is_Some. rewrite <- Hab. by apply lookup_lt_is_Some.
      + apply elem_of_cons. by left.
      + done.
    - exists k. split_and!; [done| |done]. apply elem_of_cons. by right. }
  intros Hij. apply selected_after_chosen_set. intros x. split.
  - by apply Hone.
  - by apply Hone.
Qed.

Lemma equal_labels_interchangeable_witness :
  selected_after
    (widget_callback
       (with_active [0%Z; 1%Z]
          (mk_world [] [VStr "A"; VStr "B"; VStr "A"] scenario_source [])))
  = selected_after
      (widget_callback
         (with_active [2%Z; 1%Z]
            (mk_world [] [VStr "A"; VStr "B"; VStr "A"] scenario_source []))).
Proof.
  apply (equal_labels_interchangeable
           (mk_world [] [VStr "A"; VStr "B"; VStr "A"] scenario_source [])
           0 2 [1%Z]).
  reflexivity.
Defined.
